(** * Mix-and-match character slider: the drag / wrap / snap core of
      [src/components/Scene.tsx]

    The component [DraggableRow] keeps one scalar per row (the animated
    value [x] of a spring), updates it from a drag gesture, and on every
    rendered frame places six slot groups at wrapped positions with a
    shared rotation.

    Numbers.  The source computes on JavaScript numbers, which are IEEE
    754 binary64.  Its arithmetic lines are read twice here.

    - The definitions at top level read them in exact real arithmetic
      ([R]), with the remainder operator [%], [Math.round] and [Math.PI]
      given their ECMAScript meaning on reals in [Module JS].  They carry
      what does not depend on rounding: ranges, orderings, and the values
      at offsets where every operation of the source is exact.
    - [Module F64] reads the same lines, operation for operation, on the
      primitive binary64 numbers of the kernel.  It is executable; it
      shows where rounding makes the code differ from the exact reading,
      and statements are checked on it over ranges of pixel offsets. *)

From Stdlib Require Import PrimFloat QArith.
From Stdlib Require FloatOps SpecFloat.
From Stdlib Require Import Reals Zfloor Lra Lia ZArith List Permutation Bool.
From Stdlib Require String.
Import ListNotations.
Import String.StringSyntax.
Delimit Scope string_scope with string.

#[local] Set Warnings "-inexact-float".
#[local] Open Scope R_scope.

(** ** ECMAScript number primitives on reals *)

Module JS.

(** Truncation toward zero: the integer [q] of the remainder operator,
    "whose magnitude is as large as possible without exceeding the
    magnitude of the true quotient". *)
Definition trunc (r : R) : Z :=
  if Rle_dec 0 r then Zfloor r else Zceil r.

(** [n % d]: [n - d * q] with [q = trunc (n / d)]; the result takes
    the sign of the dividend [n].  Every use in the source has the
    divisor [TOTAL_WIDTH], which is not zero. *)
Definition rem (n d : R) : R := n - d * IZR (trunc (n / d)).

(** [Math.round]: the nearest integer, a tie going to the one closer
    to plus infinity. *)
Definition round (r : R) : Z := Zfloor (r + 1 / 2).

Module Math.
Definition PI : R := Rtrigo1.PI.
Definition round (r : R) : R := IZR (JS.round r).
End Math.

End JS.

Infix "%%" := JS.rem (at level 40, left associativity) : R_scope.

(** ** Constants of the scene (Scene.tsx, lines 54-57) *)

Definition CHARACTER_COUNT : nat := 6.
Definition SPACING : R := 3.0.
Definition TOTAL_WIDTH : R := INR CHARACTER_COUNT * SPACING.
Definition START_X : R := - ((INR CHARACTER_COUNT - 1) * SPACING) / 2.

(** ** The per-frame layout (the [useFrame] callback, lines 168-189) *)

Definition halfWidth : R := TOTAL_WIDTH / 2.

(** Line 175. *)
Definition rotationY (currentDrag : R) : R :=
  (currentDrag / SPACING) * JS.Math.PI * 2.

(** Line 182, as a function of [currentPos]. *)
Definition wrap (currentPos : R) : R :=
  ((((currentPos + halfWidth) %% TOTAL_WIDTH) + TOTAL_WIDTH) %% TOTAL_WIDTH)
  - halfWidth.

(** Lines 179-182 for slot [i]. *)
Definition wrappedPos (i : nat) (currentDrag : R) : R :=
  let initialPos := START_X + INR i * SPACING in
  let currentPos := initialPos + currentDrag in
  wrap currentPos.

(** Line 146: [Array.from({ length: CHARACTER_COUNT }, (_, i) => i)]. *)
Definition indices : list nat := seq 0 CHARACTER_COUNT.

(** One full rotation, "2 * PI" in the comment of lines 173-174. *)
Definition fullTurn : R := 2 * JS.Math.PI.

(** The scene-graph node of a slot, as far as the callback writes it:
    [group.position.x] and [group.rotation.y]. *)
Record Group : Type := mkGroup { position_x : R; rotation_y : R }.

(** [Array.prototype.forEach] with the index passed to the callback;
    the callback's writes to the element are returned as the new
    element. *)
Fixpoint forEach_from {A : Type} (f : A -> nat -> A) (i : nat) (l : list A)
  : list A :=
  match l with
  | [] => []
  | a :: l' => f a i :: forEach_from f (S i) l'
  end.

Definition forEach {A : Type} (f : A -> nat -> A) (l : list A) : list A :=
  forEach_from f 0 l.

(** Lines 168-189.  [groupRefs.current] holds [null] for a slot that is
    not mounted; such an entry is skipped (line 178). *)
Definition useFrame (currentDrag : R) (groupRefs : list (option Group))
  : list (option Group) :=
  let rotationY := rotationY currentDrag in
  forEach
    (fun group i =>
       match group with
       | None => None
       | Some _ =>
           Some {| position_x := wrappedPos i currentDrag;
                   rotation_y := rotationY |}
       end)
    groupRefs.

(** Lines 198-209: the slot groups as first rendered. *)
Definition mountedGroups : list (option Group) :=
  map (fun i => Some {| position_x := START_X + INR i * SPACING;
                        rotation_y := 0 |})
      indices.

(** The wrapped positions of the six slots at drag offset [d]. *)
Definition positions (d : R) : list R :=
  map (fun i => wrappedPos i d) indices.


(** The grid point, counted from [p0], that slot [i] takes when the row
    is shifted by [s] whole spacings. *)
Definition shifted (s i : nat) : nat := (i + s) mod CHARACTER_COUNT.

(** ** The spring that owns the drag offset (lines 149-152) *)

Record SpringConfig : Type :=
  { mass : R; tension : R; friction : R; precision : R }.

Definition config : SpringConfig :=
  {| mass := 1; tension := 200; friction := 20; precision := 0.001 |}.

(** Modelled from the spec: the animated value of [useSpring], which
    belongs to the library [@react-spring/three] and is not under src/.
    Section 4.3 of the specification: while dragging the offset is set
    "immediately (no easing)"; after release it eases "toward [target]
    over subsequent frames using the damped-spring law until convergence
    within a small tolerance, at which point offset is held exactly at
    [target]".  [value] is what [x.get()] returns, [goal] the value being
    eased to, [idle] tells that no animation is running. *)
Record SpringValue : Type :=
  { value : R; velocity : R; goal : R; idle : bool }.

Definition get (x : SpringValue) : R := value x.

(** The initial value [x: 0] of line 150. *)
Definition initialSpring : SpringValue :=
  {| value := 0; velocity := 0; goal := 0; idle := true |}.

(** Modelled from the spec: [api.start({ x: to, immediate })] of the
    same library.  With [immediate] the value is set at once and nothing
    is animated (section 4.3, "immediately (no easing)"); without it the
    value stays and an animation toward [to] starts. *)
Definition api_start (to : R) (immediate : bool) (x : SpringValue)
  : SpringValue :=
  if immediate
  then {| value := to; velocity := 0; goal := to; idle := true |}
  else {| value := value x; velocity := velocity x; goal := to;
          idle := false |}.

Section SpringLaw.

(** The damped-spring law: from the configuration, the goal and the
    current position and velocity, the position and velocity one frame
    later.  The specification leaves the transient curve open. *)
Variable law : SpringConfig -> R -> R * R -> R * R.

(** Modelled from the spec: one frame of the library's animation loop
    on one spring: the law moves the value, and within the tolerance
    [precision] of the goal the value is set to the goal and the
    animation ends (section 4.3). *)
Definition advance (x : SpringValue) : SpringValue :=
  if idle x then x
  else
    let '(p, v) := law config (goal x) (value x, velocity x) in
    if Rle_dec (Rabs (goal x - p)) (precision config)
    then {| value := goal x; velocity := 0; goal := goal x; idle := true |}
    else {| value := p; velocity := v; goal := goal x; idle := false |}.

Definition frames (n : nat) (x : SpringValue) : SpringValue :=
  Nat.iter n advance x.

(** The law brings every start within the tolerance of every goal
    after finitely many frames. *)
Definition converges : Prop :=
  forall (g : R) (pv : R * R),
  exists n : nat,
    Rabs (g - fst (Nat.iter (S n) (law config g) pv)) <= precision config.

End SpringLaw.

(** A spring at rest shows its goal. *)
Definition rests (x : SpringValue) : Prop :=
  idle x = true -> get x = goal x.

(** ** The drag handler (lines 154-166) *)

(** Line 161. *)
Definition snapTarget (currentX : R) : R :=
  JS.Math.round (currentX / SPACING) * SPACING.

(** Lines 155-164: the handler, given [down] and [offset: [ox]]. *)
Definition handler (down : bool) (ox : R) (x : SpringValue) : SpringValue :=
  let currentX := ox / 40 in
  if down
  then api_start currentX true x
  else api_start (snapTarget currentX) false x.

(** Line 165: the option [from] of the gesture, in pixels. *)
Definition from (x : SpringValue) : R := get x * 40.

(** ** A row (the component [DraggableRow], lines 145-212) *)

(** The state one instance of [DraggableRow] owns: its spring, the
    baseline the running gesture sampled from [from], and its slot
    groups. *)
Record Row : Type :=
  { x : SpringValue; baseline : R; groupRefs : list (option Group) }.

Definition initialRow : Row :=
  {| x := initialSpring; baseline := 0; groupRefs := mountedGroups |}.

(** Modelled from the spec: the drag recogniser [useDrag] of the library
    [@use-gesture/react], not under src/.  Section 6: the gesture
    delivers "per update, a cumulative pixel offset since gesture start,
    and a boolean still-pressed flag"; the offset starts at the value
    that [from] returns when the gesture starts.  [movement] is the
    cumulative pointer displacement in pixels. *)
Inductive Gesture : Type :=
| PointerDown
| PointerMove (movement : R)
| PointerUp (movement : R).

Definition onGesture (ev : Gesture) (row : Row) : Row :=
  match ev with
  | PointerDown =>
      let b := from (x row) in
      {| x := handler true b (x row); baseline := b;
         groupRefs := groupRefs row |}
  | PointerMove m =>
      {| x := handler true (baseline row + m) (x row);
         baseline := baseline row; groupRefs := groupRefs row |}
  | PointerUp m =>
      {| x := handler false (baseline row + m) (x row);
         baseline := baseline row; groupRefs := groupRefs row |}
  end.

(** The operations of section 4.3 of the specification. *)
Definition onDragUpdate (pointerDeltaPixels : R) : Row -> Row :=
  onGesture (PointerMove pointerDeltaPixels).

Definition onDragEnd (pointerDeltaPixels : R) : Row -> Row :=
  onGesture (PointerUp pointerDeltaPixels).

(** ** The scene (lines 214-276): three independent rows *)

Inductive RowName : Type := Heads | Torsos | Legs.

Definition RowName_eq_dec (a b : RowName) : {a = b} + {a <> b}.
Proof. decide equality. Defined.

(** The vertical position each row is constructed with. *)
Definition rowY (r : RowName) : R :=
  match r with Heads => 1.0 | Torsos => 0 | Legs => -1.0 end.

Definition Scene : Type := RowName -> Row.

Definition initialScene : Scene := fun _ => initialRow.

(** A gesture is bound to the group of one row (line 192) and runs that
    row's handler. *)
Definition sceneGesture (r : RowName) (ev : Gesture) (sc : Scene) : Scene :=
  fun r' => if RowName_eq_dec r r' then onGesture ev (sc r) else sc r'.

(** Replacing the state of one row. *)
Definition setRow (r : RowName) (row : Row) (sc : Scene) : Scene :=
  fun r' => if RowName_eq_dec r r' then row else sc r'.

Section SceneFrames.

Variable law : SpringConfig -> R -> R * R -> R * R.

(** One rendered frame of a row: its spring advances, then its
    [useFrame] callback reads [x.get()] and writes its own groups. *)
Definition rowFrame (row : Row) : Row :=
  let x' := advance law (x row) in
  {| x := x'; baseline := baseline row;
     groupRefs := useFrame (get x') (groupRefs row) |}.

(** One rendered frame of the scene: every row's frame. *)
Definition sceneFrame (sc : Scene) : Scene := fun r => rowFrame (sc r).

(** What happens to the scene: a gesture event on one row, or a rendered
    frame. *)
Inductive SceneEvent : Type :=
| OnRow (r : RowName) (ev : Gesture)
| Frame.

Definition sceneStep (e : SceneEvent) (sc : Scene) : Scene :=
  match e with
  | OnRow r ev => sceneGesture r ev sc
  | Frame => sceneFrame sc
  end.

Definition sceneRun (es : list SceneEvent) (sc : Scene) : Scene :=
  fold_left (fun sc' e => sceneStep e sc') es sc.

(** The same run as one row sees it: its own gestures and the frames. *)
Definition rowStep (r : RowName) (e : SceneEvent) (row : Row) : Row :=
  match e with
  | OnRow r' ev => if RowName_eq_dec r' r then onGesture ev row else row
  | Frame => rowFrame row
  end.

Definition rowRun (r : RowName) (es : list SceneEvent) (row : Row) : Row :=
  fold_left (fun row' e => rowStep r e row') es row.

End SceneFrames.

(** ** The visuals: colours, segments and the drag plane *)

(** Lines 59-66. *)
Definition COLORS : list String.string :=
  ["#ef4444"%string; "#f97316"%string; "#f59e0b"%string;
   "#22c55e"%string; "#3b82f6"%string; "#a855f7"%string].

(** Line 206: [COLORS[i % COLORS.length]]; an index outside the array
    reads [undefined], here [None]. *)
Definition slotColor (i : nat) : option String.string :=
  nth_error COLORS (i mod length COLORS).

(** Line 68. *)
Inductive SegmentType : Type := head | torso | legs.

(** The geometries the scene uses, with their constructor arguments. *)
Inductive Geometry : Type :=
| cylinderGeometry (radiusTop radiusBottom height : R) (radialSegments : nat)
| sphereGeometry (radius : R) (widthSegments heightSegments : nat)
| boxGeometry (width height depth : R)
| planeGeometry (width height : R).

(** A mesh as the segments describe it: where it sits in its group,
    its geometry, the colour of its material and whether it is drawn.
    A mesh without a [position] sits at the origin. *)
Record Mesh : Type :=
  { position : R * R * R; geometry : Geometry;
    color : String.string; visible : bool }.

(** Lines 76-136: the meshes of a segment of each type. *)
Definition Segment (type : SegmentType) (color : String.string) : list Mesh :=
  match type with
  | head =>
      [ {| position := (0, 0, 0);
           geometry := cylinderGeometry 0.6 0.6 0.9 32;
           color := color; visible := true |};
        {| position := (-0.2, 0.1, 0.5);
           geometry := sphereGeometry 0.08 16 16;
           color := "#1f2937"%string; visible := true |};
        {| position := (0.2, 0.1, 0.5);
           geometry := sphereGeometry 0.08 16 16;
           color := "#1f2937"%string; visible := true |} ]
  | torso =>
      [ {| position := (0, 0, 0);
           geometry := cylinderGeometry 0.6 0.6 0.9 32;
           color := color; visible := true |};
        {| position := (0, 0, 0.55);
           geometry := boxGeometry 0.4 0.4 0.1;
           color := "white"%string; visible := true |} ]
  | legs =>
      [ {| position := (-0.3, 0, 0);
           geometry := cylinderGeometry 0.25 0.25 0.9 32;
           color := color; visible := true |};
        {| position := (0.3, 0, 0);
           geometry := cylinderGeometry 0.25 0.25 0.9 32;
           color := color; visible := true |} ]
  end.

(** Lines 193-196: the invisible plane of a row that catches the drag. *)
Definition dragPlane : Mesh :=
  {| position := (0, 0, 0.6); geometry := planeGeometry 20 1.0;
     color := ""%string; visible := false |}.

(** The segment type each row of the scene is given (lines 251-267). *)
Definition rowType (r : RowName) : SegmentType :=
  match r with Heads => head | Torsos => torso | Legs => legs end.

(** Half the extent of a geometry along the vertical axis and, for a
    geometry that is not turned, along the horizontal axis. *)
Definition halfHeight (g : Geometry) : R :=
  match g with
  | cylinderGeometry _ _ h _ => h / 2
  | sphereGeometry r _ _ => r
  | boxGeometry _ h _ => h / 2
  | planeGeometry _ h => h / 2
  end.

Definition halfWidthOf (g : Geometry) : R :=
  match g with
  | cylinderGeometry rt rb _ _ => Rmax rt rb
  | sphereGeometry r _ _ => r
  | boxGeometry w _ _ => w / 2
  | planeGeometry w _ => w / 2
  end.

Definition meshY (m : Mesh) : R := snd (fst (position m)).

(** The vertical extent of a mesh of row [r] in the scene: the row group
    sits at height [rowY r] (line 192). *)
Definition bottomOf (r : RowName) (m : Mesh) : R :=
  rowY r + meshY m - halfHeight (geometry m).

Definition topOf (r : RowName) (m : Mesh) : R :=
  rowY r + meshY m + halfHeight (geometry m).

(** The base positions of the slots (lines 179 and 202). *)
Definition basePositions : list R :=
  map (fun i => START_X + INR i * SPACING) indices.

(** ** The arithmetic lines on binary64 *)

Module F64.

#[local] Open Scope float_scope.

(** An integer as a number: the binary expansion, evaluated in binary64.
    Every step is exact while the magnitude stays below 2^53, which
    covers pixel offsets and slot indices. *)
Fixpoint of_pos (p : positive) : float :=
  match p with
  | xH => 1
  | xO q => 2 * of_pos q
  | xI q => 2 * of_pos q + 1
  end.

Definition of_Z (z : Z) : float :=
  match z with
  | Z0 => 0
  | Zpos p => of_pos p
  | Zneg p => - of_pos p
  end.

Definition of_nat (n : nat) : float := of_Z (Z.of_nat n).


(** [n % d] (ECMAScript Number::remainder): [NaN] for a [NaN] operand,
    an infinite dividend or a zero divisor; the dividend itself for an
    infinite divisor or a zero dividend; otherwise [n - d * q] with [q]
    the quotient truncated toward zero, computed exactly on mantissas
    brought to a common exponent.  The result is always representable
    and takes the sign of the dividend. *)
Definition rem (n d : float) : float :=
  match FloatOps.Prim2SF n, FloatOps.Prim2SF d with
  | SpecFloat.S754_nan, _ | _, SpecFloat.S754_nan => nan
  | SpecFloat.S754_infinity _, _ => nan
  | _, SpecFloat.S754_zero _ => nan
  | _, SpecFloat.S754_infinity _ => n
  | SpecFloat.S754_zero _, _ => n
  | SpecFloat.S754_finite sn mn en, SpecFloat.S754_finite _ md ed =>
      let e := Z.min en ed in
      let a := (Zpos mn * 2 ^ (en - e))%Z in
      let b := (Zpos md * 2 ^ (ed - e))%Z in
      match (a mod b)%Z with
      | Zpos r => FloatOps.SF2Prim (SpecFloat.S754_finite sn r e)
      | _ => if sn then neg_zero else zero
      end
  end.

(** [Math.PI]. *)
Definition PI : float := 3.141592653589793.

(** Lines 54-57. *)
Definition CHARACTER_COUNT : float := 6.
Definition SPACING : float := 3.0.
Definition TOTAL_WIDTH : float := CHARACTER_COUNT * SPACING.
Definition START_X : float := - ((CHARACTER_COUNT - 1) * SPACING) / 2.

(** Line 170. *)
Definition halfWidth : float := TOTAL_WIDTH / 2.

(** "2 * PI", lines 173-174. *)
Definition fullTurn : float := 2 * PI.

(** Line 175. *)
Definition rotationY (currentDrag : float) : float :=
  (currentDrag / SPACING) * PI * 2.

(** Line 182. *)
Definition wrap (currentPos : float) : float :=
  rem (rem (currentPos + halfWidth) TOTAL_WIDTH + TOTAL_WIDTH) TOTAL_WIDTH
  - halfWidth.

(** Lines 179-182 for slot [i]. *)
Definition wrappedPos (i : float) (currentDrag : float) : float :=
  let initialPos := START_X + i * SPACING in
  let currentPos := initialPos + currentDrag in
  wrap currentPos.

(** The wrapped positions of the six slots (lines 146 and 177-184). *)
Definition positions (d : float) : list float :=
  map (fun i => wrappedPos (of_nat i) d) (seq 0 6).

(** Line 157. *)
Definition currentX (ox : float) : float := ox / 40.

(** Line 165: [x.get() * 40]. *)
Definition from (x : float) : float := x * 40.

End F64.

(** The integers [lo, lo + 1, ..., lo + n - 1]. *)
Definition Zrange (lo : Z) (n : nat) : list Z :=
  map (fun i => (lo + Z.of_nat i)%Z) (seq 0 n).









(** On binary64 the pixel round trip of lines 165 and 157 returns the
    offset it started from. *)
Definition roundTrip (v : float) : bool :=
  (F64.currentX (F64.from v) =? v)%float.

(** ** Facts about the primitives *)

Lemma TOTAL_WIDTH_val : TOTAL_WIDTH = 18.
Proof. unfold TOTAL_WIDTH, CHARACTER_COUNT, SPACING; simpl; lra. Qed.

Lemma START_X_val : START_X = -7.5.
Proof. unfold START_X, CHARACTER_COUNT, SPACING; simpl; lra. Qed.

Lemma halfWidth_val : halfWidth = 9.
Proof. unfold halfWidth; rewrite TOTAL_WIDTH_val; lra. Qed.

Lemma indices_val : indices = [0; 1; 2; 3; 4; 5]%nat.
Proof. reflexivity. Qed.

Lemma SPACING_val : SPACING = 3.
Proof. unfold SPACING; lra. Qed.

Section Remainder.

Variables n d : R.
Hypothesis d_pos : 0 < d.

Lemma rem_congr : exists q : Z, n %% d = n - d * IZR q.
Proof. now exists (JS.trunc (n / d)). Qed.

Lemma rem_nonneg : 0 <= n -> 0 <= n %% d < d.
Proof.
  intros Hn. unfold JS.rem, JS.trunc.
  assert (Hq : 0 <= n / d) by (apply Rmult_le_pos; [lra | left; now apply Rinv_0_lt_compat]).
  destruct (Rle_dec 0 (n / d)) as [_ | C]; [| contradiction].
  destruct (Zfloor_bound (n / d)) as [Hlo Hhi].
  assert (Hn' : n = d * (n / d)) by (field; lra).
  split.
  - apply (Rmult_le_compat_l d) in Hlo; lra.
  - apply (Rmult_lt_compat_l d) in Hhi; lra.
Qed.

Lemma rem_neg : n < 0 -> - d < n %% d <= 0.
Proof.
  intros Hn. unfold JS.rem, JS.trunc.
  assert (Hq : n / d < 0).
  { assert (0 < (- n) / d) by (apply Rmult_lt_0_compat; [lra | now apply Rinv_0_lt_compat]).
    unfold Rdiv in *. rewrite Ropp_mult_distr_l_reverse in H; lra. }
  destruct (Rle_dec 0 (n / d)) as [C | _]; [lra |].
  destruct (Zceil_bound (n / d)) as [Hlo Hhi].
  assert (Hn' : n = d * (n / d)) by (field; lra).
  split.
  - apply (Rmult_lt_compat_l d) in Hlo; lra.
  - apply (Rmult_le_compat_l d) in Hhi; lra.
Qed.

Lemma rem_abs : - d < n %% d < d.
Proof.
  destruct (Rle_dec 0 n) as [H | H].
  - destruct (rem_nonneg H); lra.
  - destruct rem_neg; lra.
Qed.

End Remainder.

(** ** The wrap expression *)

(** Two reals of the centred interval that differ by a whole number of
    periods are equal. *)
Lemma centred_unique (a b : R) (k : Z) :
  - halfWidth <= a < halfWidth -> - halfWidth <= b < halfWidth ->
  a = b + IZR k * TOTAL_WIDTH -> a = b.
Proof.
  rewrite halfWidth_val, TOTAL_WIDTH_val. intros Ha Hb E.
  assert (Hk : (-1 < k < 1)%Z).
  { split; apply lt_IZR; lra. }
  assert (k = 0%Z) by lia. subst k. lra.
Qed.

Lemma wrap_range (x : R) : - halfWidth <= wrap x < halfWidth.
Proof.
  unfold wrap.
  assert (W : 0 < TOTAL_WIDTH) by (rewrite TOTAL_WIDTH_val; lra).
  pose proof (rem_abs (x + halfWidth) _ W) as H1.
  assert (H2 : 0 <= (x + halfWidth) %% TOTAL_WIDTH + TOTAL_WIDTH) by lra.
  pose proof (rem_nonneg _ _ W H2) as H3.
  unfold halfWidth in *. lra.
Qed.

Lemma wrap_congr (x : R) : exists k : Z, wrap x = x + IZR k * TOTAL_WIDTH.
Proof.
  unfold wrap.
  destruct (rem_congr (x + halfWidth) TOTAL_WIDTH) as [q1 E1].
  destruct (rem_congr ((x + halfWidth) %% TOTAL_WIDTH + TOTAL_WIDTH) TOTAL_WIDTH)
    as [q2 E2].
  exists (1 - q1 - q2)%Z.
  rewrite E2, E1, !minus_IZR. ring.
Qed.

(** The wrapped value is the only point of the centred interval that is
    congruent to the input. *)
Lemma wrap_unique (x y : R) (k : Z) :
  - halfWidth <= y < halfWidth -> y = x + IZR k * TOTAL_WIDTH -> wrap x = y.
Proof.
  intros Hy E. destruct (wrap_congr x) as [k' E'].
  apply centred_unique with (k := (k' - k)%Z); auto using wrap_range.
  rewrite E', E, minus_IZR. ring.
Qed.


(** Negative dividends: a single [%] keeps the sign of the dividend,
    the second one brings the value back into the period. *)
Example rem_negative_dividend : (-1) %% 18 = -1.
Proof.
  unfold JS.rem, JS.trunc.
  destruct (Rle_dec 0 (-1 / 18)) as [C | _]; [lra |].
  replace (Zceil (-1 / 18)) with 0%Z; [lra |].
  symmetry. apply Zceil_eq. lra.
Qed.

Example wrap_minus_10 : wrap (-10) = 8.
Proof.
  apply wrap_unique with (k := 1%Z).
  - rewrite halfWidth_val. lra.
  - rewrite TOTAL_WIDTH_val. lra.
Qed.

Example wrap_right_edge : wrap 9 = -9.
Proof.
  apply wrap_unique with (k := (-1)%Z).
  - rewrite halfWidth_val. lra.
  - rewrite TOTAL_WIDTH_val. lra.
Qed.

(** ** What the frame callback writes *)

Lemma forEach_from_map_seq {A : Type} (f : A -> nat -> A) (g : nat -> A)
    (n : nat) :
  forall i : nat,
    forEach_from f i (map g (seq i n)) = map (fun j => f (g j) j) (seq i n).
Proof.
  induction n as [| n IH]; intros i; [reflexivity |].
  simpl. now rewrite IH.
Qed.

Lemma useFrame_mounted (d : R) :
  useFrame d mountedGroups
  = map (fun w => Some {| position_x := w; rotation_y := rotationY d |})
        (positions d).
Proof.
  unfold useFrame, forEach, mountedGroups, positions, indices.
  now rewrite forEach_from_map_seq, map_map.
Qed.

(** ** Rotation *)

Lemma PI_pos : 0 < JS.Math.PI.
Proof. exact PI_RGT_0. Qed.

Lemma rotationY_turns (d : R) : rotationY d = d / SPACING * fullTurn.
Proof. unfold rotationY, fullTurn. ring. Qed.

Lemma fullTurn_pos : 0 < fullTurn.
Proof. unfold fullTurn. pose proof PI_pos. lra. Qed.

(** C5 as the specification words it has the rotation at [d = 9.0] equal
    to two full turns.  The code turns once per spacing, and 9.0 is three
    spacings. *)
Lemma rotation_at_9_is_not_two_turns : rotationY 9.0 <> 2 * fullTurn.
Proof.
  rewrite rotationY_turns. pose proof fullTurn_pos.
  unfold SPACING. lra.
Qed.

(** C5, amended: at drag offset [9.0], three spacings, slot 0 (base
    position [-7.5]) is at [wrap (-7.5 + 9.0) = 1.5] and the shared
    rotation is three full turns, a whole number of turns as at
    [d = 0]. *)
Theorem slot0_and_rotation_at_offset_9 :
  START_X + INR 0 * SPACING = -7.5 /\
  wrappedPos 0 9.0 = wrap (-7.5 + 9.0) /\
  wrap (-7.5 + 9.0) = 1.5 /\
  rotationY 9.0 = 3 * fullTurn /\
  rotationY 0 = 0 /\
  nth_error (useFrame 9.0 mountedGroups) 0
  = Some (Some {| position_x := 1.5; rotation_y := 3 * fullTurn |}).
Proof.
  assert (B : START_X + INR 0 * SPACING = -7.5).
  { rewrite START_X_val. simpl. lra. }
  assert (P : wrappedPos 0 9.0 = wrap (-7.5 + 9.0)).
  { unfold wrappedPos. now rewrite B. }
  assert (W : wrap (-7.5 + 9.0) = 1.5).
  { apply wrap_unique with (k := 0%Z).
    - rewrite halfWidth_val. lra.
    - lra. }
  assert (T : rotationY 9.0 = 3 * fullTurn).
  { rewrite rotationY_turns. unfold SPACING. lra. }
  repeat split; auto.
  - rewrite rotationY_turns. unfold SPACING. lra.
  - rewrite useFrame_mounted. unfold positions. rewrite indices_val.
    simpl. now rewrite P, W, T.
Qed.

(** ** Rounding and the snap target *)

Lemma round_bound (r : R) :
  JS.Math.round r - 1 / 2 <= r < JS.Math.round r + 1 / 2.
Proof.
  unfold JS.Math.round, JS.round.
  destruct (Zfloor_bound (r + 1 / 2)). lra.
Qed.

Lemma round_half (n : Z) : JS.Math.round (IZR n + 1 / 2) = IZR n + 1.
Proof.
  unfold JS.Math.round, JS.round.
  rewrite <- plus_IZR. f_equal.
  apply Zfloor_eq. rewrite plus_IZR. lra.
Qed.

Lemma round_nearest (r : R) (k : Z) :
  Rabs (r - JS.Math.round r) <= Rabs (r - IZR k).
Proof.
  pose proof (round_bound r) as B.
  unfold JS.Math.round in *. set (n := JS.round r) in *.
  destruct (Z_lt_le_dec k n) as [L | G].
  - assert (IZR k <= IZR n - 1).
    { rewrite <- minus_IZR. apply IZR_le. lia. }
    unfold Rabs; repeat destruct Rcase_abs; lra.
  - destruct (Z.eq_dec k n) as [-> | N]; [apply Rle_refl |].
    assert (IZR n + 1 <= IZR k).
    { rewrite <- plus_IZR. apply IZR_le. lia. }
    unfold Rabs; repeat destruct Rcase_abs; lra.
Qed.

Lemma snapTarget_multiple (v : R) :
  snapTarget v = IZR (JS.round (v / SPACING)) * SPACING.
Proof. reflexivity. Qed.

Lemma snapTarget_nearest (v : R) (k : Z) :
  Rabs (v - snapTarget v) <= Rabs (v - IZR k * SPACING).
Proof.
  pose proof (round_nearest (v / SPACING) k) as N.
  unfold snapTarget. rewrite SPACING_val in *.
  replace (v - JS.Math.round (v / 3) * 3)
    with ((v / 3 - JS.Math.round (v / 3)) * 3) by field.
  replace (v - IZR k * 3) with ((v / 3 - IZR k) * 3) by field.
  rewrite !Rabs_mult, (Rabs_pos_eq 3) by lra. lra.
Qed.

Lemma snapTarget_4 : snapTarget 4.0 = 3.0.
Proof.
  unfold snapTarget, JS.Math.round, JS.round.
  replace (Zfloor (4.0 / SPACING + 1 / 2)) with 1%Z.
  - unfold SPACING. lra.
  - symmetry. apply Zfloor_eq. unfold SPACING. lra.
Qed.

(** C10: the snap target is within half a spacing of the release
    offset, and an offset exactly halfway between two multiples of the
    spacing snaps to the larger one. *)
Theorem snapTarget_within_half_spacing_ties_up (v : R) (n : Z) :
  Rabs (snapTarget v - v) <= SPACING / 2 /\
  SPACING / 2 = 1.5 /\
  snapTarget ((IZR n + 1 / 2) * SPACING) = (IZR n + 1) * SPACING /\
  IZR n * SPACING < (IZR n + 1 / 2) * SPACING < (IZR n + 1) * SPACING.
Proof.
  repeat split; try (unfold SPACING; lra).
  - pose proof (round_bound (v / SPACING)) as B.
    unfold snapTarget. rewrite SPACING_val in *.
    unfold Rabs; destruct Rcase_abs; lra.
  - unfold snapTarget.
    replace ((IZR n + 1 / 2) * SPACING / SPACING) with (IZR n + 1 / 2)
      by (rewrite SPACING_val; field).
    now rewrite round_half.
Qed.

(** ** The spring: what a frame preserves, and settling *)

Section SpringFacts.

Variable law : SpringConfig -> R -> R * R -> R * R.

Lemma advance_goal (x : SpringValue) : goal (advance law x) = goal x.
Proof.
  unfold advance. destruct (idle x); [reflexivity |].
  destruct (law config (goal x) (value x, velocity x)) as [p v].
  now destruct Rle_dec.
Qed.

Lemma advance_idle (x : SpringValue) : idle x = true -> advance law x = x.
Proof. intros I. unfold advance. now rewrite I. Qed.

Lemma advance_rests (x : SpringValue) : rests x -> rests (advance law x).
Proof.
  unfold rests, advance. destruct (idle x) eqn:I; [auto |].
  intros _. destruct (law config (goal x) (value x, velocity x)) as [p v].
  destruct Rle_dec; simpl; [reflexivity | discriminate].
Qed.

Lemma frames_S (n : nat) (x : SpringValue) :
  frames law (S n) x = frames law n (advance law x).
Proof. unfold frames. now rewrite Nat.iter_succ_r. Qed.

Lemma frames_goal (n : nat) (x : SpringValue) :
  goal (frames law n x) = goal x.
Proof.
  induction n as [| n IH]; [reflexivity |].
  unfold frames in *. simpl. now rewrite advance_goal.
Qed.

Lemma frames_rests (n : nat) (x : SpringValue) :
  rests x -> rests (frames law n x).
Proof.
  intros Hx. induction n as [| n IH]; [exact Hx |].
  unfold frames in *. simpl. now apply advance_rests.
Qed.

Lemma frames_idle (n : nat) (x : SpringValue) :
  idle x = true -> frames law n x = x.
Proof.
  intros I. induction n as [| n IH]; [reflexivity |].
  unfold frames in *. simpl. rewrite IH. now apply advance_idle.
Qed.

Lemma frames_add (n m : nat) (x : SpringValue) :
  frames law (n + m) x = frames law m (frames law n x).
Proof.
  revert x. induction n as [| n IH]; intros x; [reflexivity |].
  change (S n + m)%nat with (S (n + m)). now rewrite !frames_S, IH.
Qed.

Lemma settles_within (g : R) (n : nat) :
  forall p v : R,
    Rabs (g - fst (Nat.iter (S n) (law config g) (p, v))) <= precision config ->
    exists m : nat,
      idle (frames law m
              {| value := p; velocity := v; goal := g; idle := false |}) = true.
Proof.
  induction n as [| n IH]; intros p v H.
  - exists 1%nat. unfold frames, advance. simpl in *.
    destruct (law config g (p, v)) as [p' v']. simpl in H.
    now destruct Rle_dec.
  - rewrite Nat.iter_succ_r in H.
    destruct (law config g (p, v)) as [p' v'] eqn:L.
    destruct (Rle_dec (Rabs (g - p')) (precision config)) as [Y | N].
    + exists 1%nat. unfold frames, advance. simpl. rewrite L.
      now destruct Rle_dec.
    + destruct (IH p' v' H) as [m Hm]. exists (S m).
      rewrite frames_S. unfold advance at 1. simpl. rewrite L.
      now destruct Rle_dec.
Qed.

Lemma settles (x : SpringValue) :
  converges law -> exists n : nat, idle (frames law n x) = true.
Proof.
  intros C. destruct (idle x) eqn:I; [now exists 0%nat |].
  destruct (C (goal x) (value x, velocity x)) as [n Hn].
  destruct (settles_within _ _ _ _ Hn) as [m Hm]. exists m.
  destruct x as [p v g i]. simpl in *. now subst i.
Qed.

End SpringFacts.

(** C3: on drag end at release offset [v = ox / 40] the spring is sent
    to [round (v / spacing) * spacing], the multiple of the spacing
    nearest to [v]; every frame keeps that target, a spring at rest shows
    exactly it, and a converging spring law comes to rest there.  A
    release at offset 4.0 has target 3.0. *)
Theorem dragEnd_snaps_to_nearest_multiple
    (law : SpringConfig -> R -> R * R -> R * R) (C : converges law)
    (x0 : SpringValue) (ox : R) :
  let v := ox / 40 in
  let target := JS.Math.round (v / SPACING) * SPACING in
  let x1 := handler false ox x0 in
  goal x1 = target /\
  (exists k : Z, target = IZR k * SPACING) /\
  (forall k : Z, Rabs (v - target) <= Rabs (v - IZR k * SPACING)) /\
  (forall n : nat,
      goal (frames law n x1) = target /\
      (idle (frames law n x1) = true -> get (frames law n x1) = target)) /\
  (exists n : nat, forall m : nat, (n <= m)%nat ->
      idle (frames law m x1) = true /\ get (frames law m x1) = target) /\
  goal (handler false (4.0 * 40) x0) = 3.0 /\
  3.0 <> 4.5 /\ 3.0 <> 6.0.
Proof.
  intros v target x1.
  assert (G : goal x1 = target) by reflexivity.
  assert (Rs : rests x1) by (unfold rests; discriminate).
  split; [exact G |].
  split; [now exists (JS.round (v / SPACING)) |].
  split; [intros k; apply snapTarget_nearest |].
  split.
  { intros n. split.
    - now rewrite frames_goal.
    - intros I. rewrite <- G, <- (frames_goal law n x1).
      now apply frames_rests. }
  split.
  { destruct (settles law x1 C) as [n Hn]. exists n. intros m Hm.
    replace m with (n + (m - n))%nat by lia.
    rewrite frames_add, frames_idle by exact Hn.
    split; [exact Hn |].
    rewrite <- G, <- (frames_goal law n x1).
    now apply frames_rests. }
  split; [| split; lra].
  unfold handler, api_start. simpl.
  replace (4.0 * 40 / 40) with 4.0 by lra. apply snapTarget_4.
Qed.

(** A law that reaches the goal in one frame converges; with it the
    release at 160 pixels settles at 3.0. *)
Lemma dragEnd_snaps_witness :
  let law := fun (_ : SpringConfig) (g : R) (_ : R * R) => (g, 0) in
  converges law /\
  goal (handler false 160 initialSpring) = 3.0 /\
  exists n : nat, forall m : nat, (n <= m)%nat ->
    idle (frames law m (handler false 160 initialSpring)) = true /\
    get (frames law m (handler false 160 initialSpring))
    = JS.Math.round (160 / 40 / SPACING) * SPACING.
Proof.
  intros law.
  assert (C : converges law).
  { intros g pv. exists 0%nat. simpl.
    replace (g - g) with 0 by ring. rewrite Rabs_R0. lra. }
  split; [exact C |].
  pose proof (dragEnd_snaps_to_nearest_multiple law C initialSpring 160) as T.
  cbv zeta in T.
  destruct T as (G & _ & _ & _ & S & _).
  split; [| exact S].
  rewrite G. change (snapTarget (160 / 40) = 3.0).
  replace (160 / 40) with 4.0 by lra. apply snapTarget_4.
Defined.

(** ** Independence of the rows *)

Lemma sceneGesture_other (r r' : RowName) (ev : Gesture) (sc : Scene) :
  r <> r' -> sceneGesture r ev sc r' = sc r'.
Proof.
  intros N. unfold sceneGesture. now destruct (RowName_eq_dec r r').
Qed.

Lemma setRow_other (r r' : RowName) (row : Row) (sc : Scene) :
  r <> r' -> setRow r row sc r' = sc r'.
Proof.
  intros N. unfold setRow. now destruct (RowName_eq_dec r r').
Qed.

Lemma sceneStep_row (law : SpringConfig -> R -> R * R -> R * R)
    (e : SceneEvent) (sc : Scene) (r : RowName) :
  sceneStep law e sc r = rowStep law r e (sc r).
Proof.
  destruct e as [r0 ev |]; simpl; [| reflexivity].
  unfold sceneGesture. destruct (RowName_eq_dec r0 r) as [-> | N]; reflexivity.
Qed.

Lemma sceneRun_row (law : SpringConfig -> R -> R * R -> R * R)
    (es : list SceneEvent) :
  forall (sc : Scene) (r : RowName),
    sceneRun law es sc r = rowRun law r es (sc r).
Proof.
  induction es as [| e es IH]; intros sc r; [reflexivity |].
  unfold sceneRun, rowRun in *. simpl.
  now rewrite IH, sceneStep_row.
Qed.

(** C9: a gesture event on one row (drag start, drag update, drag end)
    or a frame of it leaves the state of every other row -- its offset,
    its slot positions and rotations -- as it was; what a frame makes of
    a row does not depend on the state of any other row; and after any
    run of gestures and frames a row is in the state that its own
    gestures and the frames alone lead to. *)
Theorem rows_are_independent
    (law : SpringConfig -> R -> R * R -> R * R)
    (sc : Scene) (r r' : RowName) (ev : Gesture) (px : R) (row : Row)
    (es : list SceneEvent)
    (N : r <> r') :
  sceneGesture r ev sc r' = sc r' /\
  setRow r (onDragUpdate px (sc r)) sc r' = sc r' /\
  setRow r (onDragEnd px (sc r)) sc r' = sc r' /\
  setRow r (rowFrame law (sc r)) sc r' = sc r' /\
  sceneFrame law (setRow r row sc) r' = sceneFrame law sc r' /\
  sceneRun law es (setRow r row sc) r' = sceneRun law es sc r' /\
  sceneRun law (OnRow r ev :: es) sc r' = sceneRun law es sc r' /\
  sceneRun law es sc r' = rowRun law r' es (sc r').
Proof.
  repeat split.
  - now apply sceneGesture_other.
  - now apply setRow_other.
  - now apply setRow_other.
  - now apply setRow_other.
  - unfold sceneFrame. now rewrite setRow_other.
  - now rewrite !sceneRun_row, setRow_other.
  - rewrite !sceneRun_row. unfold rowRun. simpl.
    now destruct (RowName_eq_dec r r').
  - apply sceneRun_row.
Qed.

(** Dragging the heads by 120 pixels leaves the torsos where they were
    mounted. *)
Lemma rows_are_independent_witness :
  Heads <> Torsos /\
  sceneGesture Heads (PointerMove 120) initialScene Torsos = initialRow.
Proof.
  assert (N : Heads <> Torsos) by discriminate.
  split; [exact N |].
  exact (proj1 (rows_are_independent (fun _ g _ => (g, 0)) initialScene
                  Heads Torsos (PointerMove 120) 0 initialRow [Frame] N)).
Defined.

(** ** The six slots of a row *)


Lemma shifted_Z (q : Z) (i : nat) :
  Z.of_nat (shifted (Z.to_nat (q mod 6)) i) = ((Z.of_nat i + q) mod 6)%Z.
Proof.
  unfold shifted, CHARACTER_COUNT.
  rewrite Nat2Z.inj_mod, Nat2Z.inj_add, Z2Nat.id
    by (apply Z.mod_pos_bound; lia).
  change (Z.of_nat 6) with 6%Z.
  now rewrite Z.add_mod_idemp_r by lia.
Qed.



Lemma shifted_Permutation (s : nat) :
  (s < CHARACTER_COUNT)%nat -> Permutation (map (shifted s) indices) indices.
Proof.
  unfold CHARACTER_COUNT. intros H.
  destruct s as [| [| [| [| [| [| s]]]]]]; try lia; clear H.
  - apply Permutation_refl.
  - exact (Permutation_app_comm [1; 2; 3; 4; 5]%nat [0]%nat).
  - exact (Permutation_app_comm [2; 3; 4; 5]%nat [0; 1]%nat).
  - exact (Permutation_app_comm [3; 4; 5]%nat [0; 1; 2]%nat).
  - exact (Permutation_app_comm [4; 5]%nat [0; 1; 2; 3]%nat).
  - exact (Permutation_app_comm [5]%nat [0; 1; 2; 3; 4]%nat).
Qed.

(** * Further properties of the layout, the snap and the gesture *)

(** ** The frame callback on arbitrary group references *)

Lemma forEach_from_length {A : Type} (f : A -> nat -> A) (l : list A) :
  forall k : nat, length (forEach_from f k l) = length l.
Proof.
  induction l as [| a l IH]; intros k; simpl; [reflexivity |].
  now rewrite IH.
Qed.

Lemma forEach_from_nth {A : Type} (f : A -> nat -> A) (l : list A) :
  forall k i : nat,
    nth_error (forEach_from f k l) i
    = option_map (fun a => f a (k + i)%nat) (nth_error l i).
Proof.
  induction l as [| a l IH]; intros k i.
  - now destruct i.
  - destruct i as [| i]; simpl.
    + now rewrite Nat.add_0_r.
    + rewrite IH. now rewrite Nat.add_succ_r.
Qed.

Lemma useFrame_nth (d : R) (g : list (option Group)) (i : nat) :
  nth_error (useFrame d g) i
  = option_map
      (fun group : option Group =>
         match group with
         | None => None
         | Some _ => Some {| position_x := wrappedPos i d;
                             rotation_y := rotationY d |}
         end)
      (nth_error g i).
Proof.
  unfold useFrame, forEach. now rewrite forEach_from_nth.
Qed.

(** X7: the frame callback keeps the number of group references, leaves
    a reference that is [null] as it is, and gives the mounted group of
    slot [i] the wrapped position of slot [i] and the shared rotation,
    whatever the group held before. *)
Theorem useFrame_writes_mounted_slots_only
    (d : R) (g : list (option Group)) (i : nat) :
  length (useFrame d g) = length g /\
  (nth_error g i = None -> nth_error (useFrame d g) i = None) /\
  (nth_error g i = Some None -> nth_error (useFrame d g) i = Some None) /\
  (forall old : Group,
      nth_error g i = Some (Some old) ->
      nth_error (useFrame d g) i
      = Some (Some {| position_x := wrappedPos i d;
                      rotation_y := rotationY d |})).
Proof.
  split; [apply forEach_from_length |].
  rewrite useFrame_nth.
  repeat split; intros; now rewrite H.
Qed.

Lemma forEach_from_overwrite (d d' : R) (g : list (option Group)) :
  forall k : nat,
    forEach_from
      (fun (group : option Group) (i : nat) =>
         match group with
         | None => None
         | Some _ => Some {| position_x := wrappedPos i d';
                             rotation_y := rotationY d' |}
         end) k
      (forEach_from
         (fun (group : option Group) (i : nat) =>
            match group with
            | None => None
            | Some _ => Some {| position_x := wrappedPos i d;
                                rotation_y := rotationY d |}
            end) k g)
    = forEach_from
        (fun (group : option Group) (i : nat) =>
           match group with
           | None => None
           | Some _ => Some {| position_x := wrappedPos i d';
                               rotation_y := rotationY d' |}
           end) k g.
Proof.
  induction g as [| a g IH]; intros k; simpl; [reflexivity |].
  rewrite IH. now destruct a.
Qed.

(** X8: what a frame writes depends on the current drag offset and on
    which slots are mounted only: a later frame overwrites an earlier
    one, and a second frame at the same offset changes nothing. *)
Theorem useFrame_overwrites (d d' : R) (g : list (option Group)) :
  useFrame d' (useFrame d g) = useFrame d' g /\
  useFrame d (useFrame d g) = useFrame d g.
Proof.
  split; unfold useFrame, forEach; apply forEach_from_overwrite.
Qed.

(** X9: after a frame of a row every mounted group lies in
    [[-halfWidth, halfWidth)] and carries the rotation of the row's
    current offset. *)
Theorem rowFrame_groups_in_range
    (law : SpringConfig -> R -> R * R -> R * R) (row : Row)
    (i : nat) (g : Group)
    (H : nth_error (groupRefs (rowFrame law row)) i = Some (Some g)) :
  - halfWidth <= position_x g < halfWidth /\
  rotation_y g = rotationY (get (x (rowFrame law row))).
Proof.
  unfold rowFrame in *. simpl in *.
  rewrite useFrame_nth in H.
  destruct (nth_error (groupRefs row) i) as [[old |] |]; simpl in H;
    try discriminate.
  injection H as <-. simpl. split; [apply wrap_range | reflexivity].
Qed.

Lemma wrappedPos_at_rest (i : nat) :
  (i < CHARACTER_COUNT)%nat -> wrappedPos i 0 = START_X + INR i * SPACING.
Proof.
  unfold CHARACTER_COUNT. intros H. unfold wrappedPos.
  apply wrap_unique with (k := 0%Z).
  - assert (0 <= INR i <= 5).
    { split; [apply pos_INR |].
      replace 5 with (INR 5) by (simpl; lra). apply le_INR. lia. }
    rewrite halfWidth_val, START_X_val, SPACING_val. lra.
  - ring.
Qed.

Lemma positions_at_rest : positions 0 = basePositions.
Proof.
  unfold positions, basePositions. apply map_ext_in. intros i Hi.
  apply wrappedPos_at_rest. unfold indices in Hi.
  apply in_seq in Hi. lia.
Qed.

Lemma rotationY_0 : rotationY 0 = 0.
Proof. rewrite rotationY_turns. unfold SPACING. lra. Qed.

(** X10: the first frame agrees with the mount: at drag offset 0 the
    frame callback writes the positions the slot groups are rendered
    with (line 202) and no rotation, so a frame leaves the initial row
    and the initial scene as they are. *)
Theorem first_frame_keeps_mounted_layout
    (law : SpringConfig -> R -> R * R -> R * R) (r : RowName) :
  useFrame 0 mountedGroups = mountedGroups /\
  rowFrame law initialRow = initialRow /\
  sceneFrame law initialScene r = initialScene r.
Proof.
  assert (U : useFrame 0 mountedGroups = mountedGroups).
  { rewrite useFrame_mounted, positions_at_rest, rotationY_0.
    unfold basePositions, mountedGroups. now rewrite map_map. }
  assert (F : rowFrame law initialRow = initialRow).
  { unfold rowFrame, initialRow. simpl. unfold get. simpl. now rewrite U. }
  repeat split; auto.
Qed.

(** The first slot of the initial row after one frame. *)
Lemma rowFrame_groups_in_range_witness :
  let law := fun (_ : SpringConfig) (g : R) (_ : R * R) => (g, 0) in
  let g0 := {| position_x := wrappedPos 0 (get (advance law initialSpring));
               rotation_y := rotationY (get (advance law initialSpring)) |} in
  nth_error (groupRefs (rowFrame law initialRow)) 0 = Some (Some g0) /\
  - halfWidth <= position_x g0 < halfWidth.
Proof.
  intros law g0.
  assert (H : nth_error (groupRefs (rowFrame law initialRow)) 0
              = Some (Some g0)) by reflexivity.
  split; [exact H |].
  exact (proj1 (rowFrame_groups_in_range law initialRow 0 g0 H)).
Defined.

(** ** More on the snap target *)

Lemma round_integer (k : Z) : JS.Math.round (IZR k) = IZR k.
Proof.
  unfold JS.Math.round, JS.round. f_equal. apply Zfloor_eq. lra.
Qed.

Lemma snapTarget_of_multiple (k : Z) :
  snapTarget (IZR k * SPACING) = IZR k * SPACING.
Proof.
  unfold snapTarget.
  replace (IZR k * SPACING / SPACING) with (IZR k)
    by (rewrite SPACING_val; field).
  now rewrite round_integer.
Qed.

(** X11: an offset that is a whole number of spacings is its own snap
    target, so snapping twice is snapping once. *)
Theorem snapTarget_fixes_multiples (v : R) (k : Z) :
  snapTarget (IZR k * SPACING) = IZR k * SPACING /\
  snapTarget (snapTarget v) = snapTarget v.
Proof.
  split; [apply snapTarget_of_multiple |].
  rewrite (snapTarget_multiple v). apply snapTarget_of_multiple.
Qed.

(** X12: the snap target never decreases when the release offset
    grows. *)
Theorem snapTarget_monotone (v w : R) (H : v <= w) :
  snapTarget v <= snapTarget w.
Proof.
  unfold snapTarget, JS.Math.round, JS.round. rewrite SPACING_val.
  apply Rmult_le_compat_r; [lra |].
  apply IZR_le, Zfloor_le. lra.
Qed.

Lemma snapTarget_monotone_witness :
  1.4 <= 1.6 /\ snapTarget 1.4 <= snapTarget 1.6.
Proof.
  assert (H : 1.4 <= 1.6) by lra.
  split; [exact H | exact (snapTarget_monotone 1.4 1.6 H)].
Defined.

(** X13: releasing a whole number of spacings further along moves the
    snap target by the same amount. *)
Theorem snapTarget_shift (v : R) (k : Z) :
  snapTarget (v + IZR k * SPACING) = snapTarget v + IZR k * SPACING.
Proof.
  unfold snapTarget, JS.Math.round, JS.round.
  replace ((v + IZR k * SPACING) / SPACING + 1 / 2)
    with (v / SPACING + 1 / 2 + IZR k) by (rewrite SPACING_val; field).
  rewrite Zfloor_addz, plus_IZR. ring.
Qed.

(** ** The layout at a snapped offset *)

Lemma wrappedPos_at_multiple (k : Z) (i : nat) :
  wrappedPos i (IZR k * SPACING)
  = START_X + INR (shifted (Z.to_nat (k mod 6)) i) * SPACING.
Proof.
  unfold wrappedPos.
  rewrite START_X_val, SPACING_val, !INR_IZR_INZ, shifted_Z.
  pose proof (Z.mod_pos_bound (Z.of_nat i + k) 6 ltac:(lia)) as B.
  pose proof (Z.div_mod (Z.of_nat i + k) 6 ltac:(lia)) as E.
  set (m := ((Z.of_nat i + k) mod 6)%Z) in *.
  set (c := ((Z.of_nat i + k) / 6)%Z) in *.
  assert (Bm : 0 <= IZR m <= 5) by (split; apply IZR_le; lia).
  assert (Em : IZR (Z.of_nat i) + IZR k = 6 * IZR c + IZR m).
  { rewrite <- plus_IZR, E, plus_IZR, mult_IZR. reflexivity. }
  apply wrap_unique with (k := (- c)%Z).
  - rewrite halfWidth_val. lra.
  - rewrite TOTAL_WIDTH_val, opp_IZR. lra.
Qed.

(** X14: at a snap target the row shows its resting picture: the six
    slots occupy exactly the six base positions (each slot on the base
    position [k] places further, cyclically) and the shared rotation is
    a whole number of full turns. *)
Theorem snapped_row_sits_on_base_positions (v : R) :
  exists k : Z,
    snapTarget v = IZR k * SPACING /\
    (forall i : nat,
        wrappedPos i (snapTarget v)
        = START_X + INR ((i + Z.to_nat (k mod 6)) mod 6) * SPACING) /\
    Permutation (positions (snapTarget v)) basePositions /\
    rotationY (snapTarget v) = IZR k * fullTurn.
Proof.
  exists (JS.round (v / SPACING)).
  set (k := JS.round (v / SPACING)).
  assert (E : snapTarget v = IZR k * SPACING) by reflexivity.
  split; [exact E |]. rewrite E.
  split; [intros i; apply wrappedPos_at_multiple |].
  split.
  - unfold positions, basePositions.
    rewrite (map_ext _ _ (wrappedPos_at_multiple k)),
      <- (map_map (shifted (Z.to_nat (k mod 6)))
                  (fun j => START_X + INR j * SPACING)).
    apply Permutation_map, shifted_Permutation.
    unfold CHARACTER_COUNT.
    pose proof (Z.mod_pos_bound k 6 ltac:(lia)). lia.
  - rewrite rotationY_turns, SPACING_val. field.
Qed.

(** ** A whole gesture *)

Section RowFrames.

Variable law : SpringConfig -> R -> R * R -> R * R.



End RowFrames.



(** ** Colours, segments and the drag plane *)

(** X19: the colour lookup of line 206 never reads outside [COLORS],
    repeats with the number of slots, and gives the six slots of a row
    six different colours. *)
Theorem every_slot_has_its_own_colour (i : nat) :
  (exists c : String.string, slotColor i = Some c) /\
  slotColor (i + CHARACTER_COUNT) = slotColor i /\
  NoDup (map slotColor indices).
Proof.
  unfold slotColor, CHARACTER_COUNT.
  change (length COLORS) with 6%nat.
  split; [| split].
  - pose proof (Nat.mod_upper_bound i 6 ltac:(lia)) as B.
    destruct (i mod 6)%nat as [| [| [| [| [| [| n]]]]]]; simpl; eauto; lia.
  - replace (i + 6)%nat with (i + 1 * 6)%nat by lia.
    now rewrite Nat.Div0.mod_add.
  - rewrite indices_val. simpl.
    repeat (constructor; [simpl; intuition discriminate |]).
    constructor.
Qed.

Lemma segment_band (t : SegmentType) (c : String.string) (m : Mesh) :
  In m (Segment t c) ->
  -0.45 <= meshY m - halfHeight (geometry m) /\
  meshY m + halfHeight (geometry m) <= 0.45.
Proof.
  destruct t; simpl; intros H;
    repeat (destruct H as [<- | H]; [unfold meshY; simpl; lra |]);
    contradiction.
Qed.

Lemma rowY_step (r r' : RowName) : rowY r' < rowY r -> rowY r' + 1 <= rowY r.
Proof. destruct r, r'; simpl; lra. Qed.

(** X20: every mesh of every segment fits in a band of height 0.9 around
    the height of its row, and the rows are a full unit apart: between a
    mesh of a row and a mesh of a row above it there is a gap of at
    least 0.1 (the comment of lines 215-220). *)
Theorem segments_of_different_rows_do_not_overlap
    (r r' : RowName) (t t' : SegmentType) (c c' : String.string)
    (m m' : Mesh)
    (Hm : In m (Segment t c)) (Hm' : In m' (Segment t' c'))
    (Above : rowY r' < rowY r) :
  rowY r - 0.45 <= bottomOf r m /\
  topOf r' m' <= rowY r' + 0.45 /\
  topOf r' m' + 0.1 <= bottomOf r m.
Proof.
  pose proof (segment_band t c m Hm) as [B _].
  pose proof (segment_band t' c' m' Hm') as [_ T].
  pose proof (rowY_step r r' Above) as S.
  unfold bottomOf, topOf. repeat split; lra.
Qed.

(** The face of a head above the badge of a torso. *)
Lemma segments_of_different_rows_witness :
  let eye := {| position := (-0.2, 0.1, 0.5);
                geometry := sphereGeometry 0.08 16 16;
                color := "#1f2937"%string; visible := true |} in
  let badge := {| position := (0, 0, 0.55);
                  geometry := boxGeometry 0.4 0.4 0.1;
                  color := "white"%string; visible := true |} in
  In eye (Segment head "#ef4444"%string) /\
  In badge (Segment torso "#f97316"%string) /\
  rowY Torsos < rowY Heads /\
  topOf Torsos badge + 0.1 <= bottomOf Heads eye.
Proof.
  intros eye badge.
  assert (He : In eye (Segment head "#ef4444"%string))
    by (simpl; auto).
  assert (Hb : In badge (Segment torso "#f97316"%string))
    by (simpl; auto).
  assert (A : rowY Torsos < rowY Heads) by (simpl; lra).
  repeat split; auto.
  exact (proj2 (proj2 (segments_of_different_rows_do_not_overlap
                         Heads Torsos head torso _ _ eye badge He Hb A))).
Defined.

(** X21: the drag plane of a row reaches at least one unit beyond every
    slot position on both sides at every drag offset, is as high as the
    distance between the rows, and so the planes of neighbouring rows
    meet edge to edge without overlapping. *)
Theorem dragPlane_covers_the_slots (d : R) (i : nat) :
  - halfWidthOf (geometry dragPlane) + 1 <= wrappedPos i d /\
  wrappedPos i d < halfWidthOf (geometry dragPlane) - 1 /\
  topOf Torsos dragPlane = bottomOf Heads dragPlane /\
  topOf Legs dragPlane = bottomOf Torsos dragPlane.
Proof.
  pose proof (wrap_range (START_X + INR i * SPACING + d)) as Rg.
  rewrite halfWidth_val in Rg.
  unfold wrappedPos, topOf, bottomOf, meshY. simpl.
  repeat split; lra.
Qed.

(** * The code's binary64 arithmetic *)

(** ** Ranges of integers *)

Lemma Zrange_In (lo : Z) (n : nat) (z : Z) :
  (lo <= z < lo + Z.of_nat n)%Z -> In z (Zrange lo n).
Proof.
  intros H. unfold Zrange. apply in_map_iff.
  exists (Z.to_nat (z - lo)). split; [lia |].
  apply in_seq. lia.
Qed.

Lemma forallb_Zrange (P : Z -> bool) (lo : Z) (n : nat) :
  forallb P (Zrange lo n) = true ->
  forall z : Z, (lo <= z < lo + Z.of_nat n)%Z -> P z = true.
Proof.
  intros H z Hz. rewrite forallb_forall in H. now apply H, Zrange_In.
Qed.


(** ** Evaluations over ranges of pixel offsets *)






Lemma pixel_round_trips_checked :
  forallb (fun p => roundTrip (F64.currentX (F64.of_Z p)))
          (Zrange (-2000) 4001) = true.
Proof. vm_compute. reflexivity. Qed.

Lemma snapped_round_trips_checked :
  forallb (fun k => roundTrip (F64.of_Z k * F64.SPACING)%float)
          (Zrange (-500) 1001) = true.
Proof. vm_compute. reflexivity. Qed.



(** ** Where rounding shows *)






(** C7 as the specification words it: on the code's numbers a gesture
    that starts at offset 0.47 and does not move puts the offset at
    0.4699999999999999. *)
Lemma pixel_round_trip_binary64_moves_offset :
  F64.currentX (F64.from 0.47) = 0.4699999999999999%float /\
  (F64.currentX (F64.from 0.47) =? 0.47)%float = false.
Proof. split; vm_compute; reflexivity. Qed.

(** ** What holds of the wrap expression *)




(** ** What holds of the slot positions *)



(** ** What holds of the rotation *)




(** X15: the rotation never decreases when the drag offset grows. *)
Theorem rotationY_nondecreasing (a b : R) (H : a <= b) :
  rotationY a <= rotationY b.
Proof.
  pose proof fullTurn_pos as T.
  rewrite !rotationY_turns, SPACING_val.
  apply Rmult_le_compat_r; lra.
Qed.

Lemma rotationY_nondecreasing_witness :
  1.4 <= 1.6 /\ rotationY 1.4 <= rotationY 1.6.
Proof.
  assert (H : 1.4 <= 1.6) by lra.
  split; [exact H | exact (rotationY_nondecreasing 1.4 1.6 H)].
Defined.

(** ** What holds when a drag is re-engaged *)

(** C7, amended: a gesture that starts while the row is at offset [v]
    (at rest or in the middle of settling) samples [from = v * 40] as its
    baseline, and with no pointer movement the handler sets the offset to
    that baseline divided by 40, at once and whatever the goal, velocity
    or state of the interrupted animation.  The result is [v] itself
    where the two operations are exact: at 2.7, at every whole number of
    spacings and at every offset that a whole pixel offset divided by 40
    produced.  On the code's numbers this is evaluated at 2.7, for
    k = -500..500 spacings and for the pixel offsets -2000..2000. *)
Theorem reengage_samples_current_offset
    (row : Row) (v vel T b : R) (g : list (option Group)) (k p : Z) :
  let settling (v0 : R) :=
    {| x := {| value := v0; velocity := vel; goal := T; idle := false |};
       baseline := b; groupRefs := g |} in
  let row1 := onGesture PointerDown row in
  baseline row1 = from (x row) /\
  from (x row) = get (x row) * 40 /\
  get (x row1) = baseline row1 / 40 /\
  get (x (onDragUpdate 0 row1)) = (baseline row1 + 0) / 40 /\
  goal (x row1) = get (x row1) /\
  x (onGesture PointerDown (settling v))
  = x (onGesture PointerDown
         {| x := {| value := v; velocity := 0; goal := v; idle := true |};
            baseline := 0; groupRefs := [] |}) /\
  get (x (onGesture PointerDown (settling 2.7))) = 2.7 /\
  get (x (onDragUpdate 0 (onGesture PointerDown (settling 2.7)))) = 2.7 /\
  get (x (onGesture PointerDown (settling (IZR k * SPACING))))
  = IZR k * SPACING /\
  get (x (onGesture PointerDown (settling (IZR p / 40)))) = IZR p / 40 /\
  (F64.currentX (F64.from 2.7) =? 2.7)%float = true /\
  (forall k' : Z, (-500 <= k' <= 500)%Z ->
      let v' := (F64.of_Z k' * F64.SPACING)%float in
      (F64.currentX (F64.from v') =? v')%float = true) /\
  (forall p' : Z, (-2000 <= p' <= 2000)%Z ->
      let v' := F64.currentX (F64.of_Z p') in
      (F64.currentX (F64.from v') =? v')%float = true).
Proof.
  intros settling row1.
  assert (RT : forall v0 : R,
             get (x (onGesture PointerDown (settling v0))) = v0).
  { intros v0. unfold settling. simpl. unfold from, get. simpl. field. }
  split; [reflexivity |].
  split; [reflexivity |].
  split; [reflexivity |].
  split; [reflexivity |].
  split; [reflexivity |].
  split; [reflexivity |].
  split; [apply RT |].
  split.
  { unfold onDragUpdate, settling. simpl. unfold from, get. simpl. field. }
  split; [apply RT |].
  split; [apply RT |].
  split; [vm_compute; reflexivity |].
  split.
  - intros k' Hk v'.
    apply (forallb_Zrange _ _ _ snapped_round_trips_checked). lia.
  - intros p' Hp v'.
    apply (forallb_Zrange _ _ _ pixel_round_trips_checked). lia.
Qed.
